(** * A shallow embedding of the zelkel parser (src/parser.rs)

    The parser is a recursive-descent, precedence-climbing parser over a
    token vector.  Rust's [Result<_, String>] becomes [Result] below, with
    two more outcomes: [Panic] for the places where the Rust code aborts
    ([toks[i]] out of range, [unwrap] of [None], [todo!()]), and
    [OutOfFuel], the fuel device that makes the mutual recursion
    structural.  The fuel given by [parse] is always enough (see
    [parse_loop_not_out_of_fuel]). *)

From Stdlib Require Import ZArith Lia.
From stdpp Require Import base gmap strings list.

Open Scope string_scope.
Open Scope list_scope.

(** ** Tokens (module [crate::lexer])

    Modelled from the spec: the lexer module (Token, TokenPos, TokenValue,
    TokenValue::empty and TokenValue::as_string) is not in src/.  TokenValue
    has the variants listed in the spec (6. EXTERNAL INTERFACES); integer
    payloads are integers, the float payload is kept as its literal text. *)
Inductive TokenValue :=
  | Identifier (s : string)
  | StringV (s : string)
  | Integer (n : Z)
  | Float (s : string)
  | Bool (b : bool)
  | Arithmetic (s : string)
  | Punctuation (s : string)
  | Nested.

#[global] Instance TokenValue_eq_dec : EqDecision TokenValue.
Proof. solve_decision. Defined.

(** Modelled from the spec: a source position (line, column). *)
Record TokenPos := mkPos { line : nat; column : nat }.

#[global] Instance TokenPos_eq_dec : EqDecision TokenPos.
Proof. solve_decision. Defined.

(** Modelled from the spec: a token is a value with its position. *)
Record Token := mkToken { value : TokenValue; pos : TokenPos }.

#[global] Instance Token_eq_dec : EqDecision Token.
Proof. solve_decision. Defined.

(** [enum ValueType] (line 12) *)
Inductive ValueType := TInteger | TFloat | TString | TBool.

#[global] Instance ValueType_eq_dec : EqDecision ValueType.
Proof. solve_decision. Defined.

(** ** Outcomes of a Rust computation *)

Inductive PanicKind :=
  | IndexOutOfBounds   (** [toks[i]] with [i >= toks.len()] *)
  | UnwrapNone         (** [Option::unwrap] on [None] *)
  | Todo.              (** [todo!()] *)

(** The messages the parser passes to [crate::error], one constructor per
    [format!] of the source. *)
Inductive ErrMsg :=
  | EUnexpectedEOF                               (** "Unexpected end of file" *)
  | EExpected (expected got : TokenValue)        (** "Expected {:?} but got {:?}" *)
  | EUnknownType (s : string)                    (** "Unknown type: '{}'" *)
  | EExpectedTypeIdent           (** "Expected an identifier while parsing type" *)
  | EUnexpectedPrimary (** "Unexpected token found while parsing primary expression" *)
  | ETypeMismatch                                (** "Type mismatch" *)
  | ETypeMismatchDecl (expected found : ValueType)     (** "Type mismatch: expected .., but found .." *)
  | EAlreadyDeclared (name : string)             (** "Variable '{}' already declared" *)
  | EUnknownIdentifier (s : string)              (** "Unknown identifier: '{}'" *)
  | EExpectedIdentifier.     (** "Expected an identifier while parsing identifier" *)

(** [crate::error(msg, pos)]: the error string carries a message and a
    position. *)
Record PError := error { message : ErrMsg; err_pos : TokenPos }.

Inductive Result (A : Type) :=
  | Ok (a : A)
  | Err (e : PError)
  | Panic (p : PanicKind)
  | OutOfFuel.
Arguments Ok {A} a.
Arguments Err {A} e.
Arguments Panic {A} p.
Arguments OutOfFuel {A}.

(** Rust's [?]: errors, panics and fuel exhaustion propagate. *)
Definition res_bind {A B} (m : Result A) (k : A -> Result B) : Result B :=
  match m with
  | Ok a => k a
  | Err e => Err e
  | Panic p => Panic p
  | OutOfFuel => OutOfFuel
  end.

Notation "'let*' x ':=' m 'in' k" := (res_bind m (fun x => k))
  (at level 200, x name, m at level 100, k at level 200).
Notation "'let*' ' x ':=' m 'in' k" := (res_bind m (fun '(x) => k))
  (at level 200, x pattern, m at level 100, k at level 200).

(** [toks[i]] *)
Definition index {A} (l : list A) (i : nat) : Result A :=
  match nth_error l i with
  | Some x => Ok x
  | None => Panic IndexOutOfBounds
  end.

(** [Option::unwrap] *)
Definition unwrap {A} (o : option A) : Result A :=
  match o with
  | Some x => Ok x
  | None => Panic UnwrapNone
  end.

(** Modelled from the spec: [TokenValue::empty("identifier")] is the
    identifier pattern with an empty payload. *)
Definition empty_identifier : TokenValue := Identifier "".

(** Modelled from the spec: [TokenValue::as_string] gives the text payload
    of a textual token; it is taken to panic on the other variants. *)
Definition as_string (v : TokenValue) : Result string :=
  match v with
  | Identifier s | StringV s | Arithmetic s | Punctuation s | Float s => Ok s
  | _ => Panic Todo
  end.

(** ** AST (lines 5-110) *)


(** The expression structs of the source are mutually recursive with the
    [ExpressionKind] enum; Rocq has no mutual records mixed with a sum type,
    so each struct is a one-constructor inductive with its fields as
    arguments, in the order of the source, and projections follow. *)
Inductive Expression := mkExpression (kind : ExpressionKind) (typ : ValueType)
with ExpressionKind :=
  | Primary (p : PrimaryExpression)
  | Unary (u : UnaryExpression)
  | Term (t : TermExpression)
  | Comparison (c : ComparisonExpression)
  | Binary (b : BinaryExpression)
with PrimaryExpression :=
  mkPrimary (p_value : TokenValue) (p_typ : ValueType) (p_nested : option Expression)
with UnaryExpression :=
  mkUnary (u_left : PrimaryExpression) (u_typ : ValueType) (u_op : option Token)
with TermExpression :=
  mkTerm (t_right : option UnaryExpression) (t_left : option UnaryExpression)
         (t_typ : ValueType) (t_op : option Token)
with ComparisonExpression :=
  mkComparison (c_right : option TermExpression) (c_left : option TermExpression)
               (c_typ : ValueType) (c_op : option Token)
with BinaryExpression :=
  mkBinary (b_right : option ComparisonExpression) (b_left : option ComparisonExpression)
           (b_typ : ValueType) (b_op : option Token).

Definition kind (e : Expression) := let 'mkExpression k _ := e in k.
Definition typ (e : Expression) := let 'mkExpression _ t := e in t.
Definition p_value (p : PrimaryExpression) := let 'mkPrimary v _ _ := p in v.
Definition p_typ (p : PrimaryExpression) := let 'mkPrimary _ t _ := p in t.
Definition p_nested (p : PrimaryExpression) := let 'mkPrimary _ _ n := p in n.
Definition u_left (u : UnaryExpression) := let 'mkUnary l _ _ := u in l.
Definition u_typ (u : UnaryExpression) := let 'mkUnary _ t _ := u in t.
Definition u_op (u : UnaryExpression) := let 'mkUnary _ _ o := u in o.
Definition t_right (t : TermExpression) := let 'mkTerm r _ _ _ := t in r.
Definition t_left (t : TermExpression) := let 'mkTerm _ l _ _ := t in l.
Definition t_typ (t : TermExpression) := let 'mkTerm _ _ ty _ := t in ty.
Definition t_op (t : TermExpression) := let 'mkTerm _ _ _ o := t in o.
Definition c_right (c : ComparisonExpression) := let 'mkComparison r _ _ _ := c in r.
Definition c_left (c : ComparisonExpression) := let 'mkComparison _ l _ _ := c in l.
Definition c_typ (c : ComparisonExpression) := let 'mkComparison _ _ ty _ := c in ty.
Definition c_op (c : ComparisonExpression) := let 'mkComparison _ _ _ o := c in o.
Definition b_right (b : BinaryExpression) := let 'mkBinary r _ _ _ := b in r.
Definition b_left (b : BinaryExpression) := let 'mkBinary _ l _ _ := b in l.
Definition b_typ (b : BinaryExpression) := let 'mkBinary _ _ ty _ := b in ty.
Definition b_op (b : BinaryExpression) := let 'mkBinary _ _ _ o := b in o.

(** [struct VariableDeclaration] (line 27); Rust has the struct and the
    [StatementKind] variant under one name, Rocq needs two. *)
Record VariableDeclarationS := mkVariableDeclaration
  { vd_name : string; vd_typ : ValueType; vd_expr : Expression }.

(** [struct ExpressionStatement] (line 42) *)
Record ExpressionStatementS := mkExpressionStatement
  { es_typ : ValueType; es_expr : Expression }.

(** [Statement], [StatementKind], [FunctionDeclaration] (lines 6-39) *)
Inductive Statement := mkStatement (s_kind : StatementKind) (s_pos : TokenPos)
with StatementKind :=
  | VariableDeclaration (d : VariableDeclarationS)
  | FunctionDeclaration (d : FunctionDeclarationS)
  | ExpressionStatement (e : ExpressionStatementS)
with FunctionDeclarationS :=
  mkFunctionDeclaration (fd_name : string) (fd_typ : ValueType)
    (fd_args : list VariableDeclarationS) (fd_body : list Statement).

Definition s_kind (s : Statement) := let 'mkStatement k _ := s in k.
Definition s_pos (s : Statement) := let 'mkStatement _ p := s in p.

(** [struct VariableOptions] and [struct Scope] (lines 100-110); the
    [HashMap<String, VariableOptions>] is a [gmap]. *)
Record VariableOptions := mkVariableOptions { mutable : bool; vo_typ : ValueType }.

Record Scope := mkScope
  { variables : gmap string VariableOptions; functions : list string }.

(** ** [expect] (lines 112-124) *)

(** The variants the [else if let] of [expect] lists. *)
Definition is_category (v : TokenValue) : bool :=
  match v with
  | Identifier _ | StringV _ | Arithmetic _ | Punctuation _ => true
  | _ => false
  end.

Definition expect (i : nat) (toks : list Token) (value' : TokenValue) : Result Token :=
  if Nat.leb (length toks) i then
    let* t := index toks i in Err (error EUnexpectedEOF (pos t))
  else
    let* t := index toks i in
    if bool_decide (value t = value') then Ok t
    else if is_category value' then Ok t
    else Err (error (EExpected value' (value t)) (pos t)).

(** ** Scopes (lines 126-138) *)

Definition empty_scope : Scope := mkScope ∅ [].

Definition enter_scope (scope : list Scope) : list Scope :=
  let parent_scope := match last scope with Some s => s | None => empty_scope end in
  scope ++ [parent_scope].

Definition exit_scope (scope : list Scope) : list Scope := removelast scope.

(** ** [parse_type] (lines 140-151) *)

Definition parse_type (tok : Token) : Result ValueType :=
  match value tok with
  | Identifier s =>
      if bool_decide (s = "int") then Ok TInteger
      else if bool_decide (s = "str") then Ok TString
      else if bool_decide (s = "float") then Ok TFloat
      else if bool_decide (s = "bool") then Ok TBool
      else Err (error (EUnknownType s) (pos tok))
  | _ => Err (error EExpectedTypeIdent (pos tok))
  end.

(** ** The expression layers (lines 153-352) *)

Definition is_term_op (v : TokenValue) : bool :=
  bool_decide (v = Arithmetic "*") || bool_decide (v = Arithmetic "/")
  || bool_decide (v = Arithmetic "%").

Definition is_comparison_op (v : TokenValue) : bool :=
  bool_decide (v = Arithmetic "==") || bool_decide (v = Arithmetic "!=")
  || bool_decide (v = Arithmetic ">=") || bool_decide (v = Arithmetic "<=")
  || bool_decide (v = Arithmetic ">") || bool_decide (v = Arithmetic "<").

(** The [while] condition of the Term and Comparison loops:
    [i < toks.len() && is_op(toks[i]) && toks[i + 1].value != ";"],
    evaluated left to right with short circuit. *)
Definition op_guard (is_op : TokenValue -> bool) (i : nat) (toks : list Token)
  : Result bool :=
  if Nat.ltb i (length toks) then
    let* t := index toks i in
    if is_op (value t) then
      let* t1 := index toks (S i) in
      Ok (bool_decide (value t1 <> Punctuation ";"))
    else Ok false
  else Ok false.

(** The [while] loops of [parse_term_expression],
    [parse_comparison_expression] and [parse_expression] are the
    functions [term_loop], [comparison_loop] and [expression_loop]: one
    call per iteration, with the loop's mutable variables ([i], [expr]) as
    arguments and the code after the loop in the exit branch. *)
Fixpoint parse_primary_expression (fuel i : nat) (toks : list Token) {struct fuel}
  : Result (PrimaryExpression * nat) :=
  match fuel with 0 => OutOfFuel | S fuel =>
  let* t := index toks i in
  let i := S i in
  match value t with
  | StringV _ => Ok (mkPrimary (value t) TString None, i)
  | Integer _ => Ok (mkPrimary (value t) TInteger None, i)
  | Float _ => Ok (mkPrimary (value t) TFloat None, i)
  | Bool _ => Ok (mkPrimary (value t) TBool None, i)
  | Punctuation p =>
      if bool_decide (p = "(") then
        let* '(expr, j) := parse_expression fuel i toks in
        let i := j in
        let* _ := expect i toks (Punctuation ")") in
        let i := S i in
        Ok (mkPrimary Nested (typ expr) (Some expr), i)
      else Err (error EUnexpectedPrimary (pos t))
  | Identifier _ => Panic Todo
  | _ => Err (error EUnexpectedPrimary (pos t))
  end
  end

with parse_unary_expression (fuel i : nat) (toks : list Token) {struct fuel}
  : Result (UnaryExpression * nat) :=
  match fuel with 0 => OutOfFuel | S fuel =>
  let* t := index toks i in
  if bool_decide (value t = Arithmetic "-") || bool_decide (value t = Arithmetic "+") then
    let i := S i in
    let* '(right', j) := parse_unary_expression fuel i toks in
    Ok (mkUnary (mkPrimary (p_value (u_left right')) (p_typ (u_left right'))
                           (p_nested (u_left right')))
                (u_typ right') (Some t), j)
  else
    let* '(left', j) := parse_primary_expression fuel i toks in
    Ok (mkUnary left' (p_typ left') None, j)
  end

with parse_term_expression (fuel i : nat) (toks : list Token) {struct fuel}
  : Result (option TermExpression * nat) :=
  match fuel with 0 => OutOfFuel | S fuel =>
  let* '(left', j) := parse_unary_expression fuel i toks in
  term_loop fuel j toks left' None
  end

with term_loop (fuel i : nat) (toks : list Token) (left' : UnaryExpression)
  (expr : option TermExpression) {struct fuel} : Result (option TermExpression * nat) :=
  match fuel with 0 => OutOfFuel | S fuel =>
  let* go := op_guard is_term_op i toks in
  if go then
    let* op := expect i toks (Arithmetic "") in
    let i := S i in
    let* '(right', k) := parse_unary_expression fuel i toks in
    let i := k in
    if bool_decide (u_typ left' <> u_typ right') then
      let* t := index toks i in Err (error ETypeMismatch (pos t))
    else
      let* prev := unwrap expr in
      term_loop fuel i toks left' (Some (mkTerm (Some right') (Some left') (t_typ prev) (Some op)))
  else
    match expr with
    | None => Ok (Some (mkTerm None (Some left') (u_typ left') None), i)
    | Some _ => Ok (expr, i)
    end
  end

with parse_comparison_expression (fuel i : nat) (toks : list Token) {struct fuel}
  : Result (option ComparisonExpression * nat) :=
  match fuel with 0 => OutOfFuel | S fuel =>
  let* '(left', j) := parse_term_expression fuel i toks in
  comparison_loop fuel j toks left' None
  end

with comparison_loop (fuel i : nat) (toks : list Token) (left' : option TermExpression)
  (expr : option ComparisonExpression) {struct fuel}
  : Result (option ComparisonExpression * nat) :=
  match fuel with 0 => OutOfFuel | S fuel =>
  let* go := op_guard is_comparison_op i toks in
  if go then
    let* op := expect i toks (Arithmetic "") in
    let i := S i in
    let* '(right', k) := parse_term_expression fuel i toks in
    let i := k in
    let* l := unwrap left' in
    let* r := unwrap right' in
    if bool_decide (t_typ l <> t_typ r) then
      let* t := index toks i in Err (error ETypeMismatch (pos t))
    else
      let* prev := unwrap expr in
      comparison_loop fuel i toks left' (Some (mkComparison right' left' (c_typ prev) (Some op)))
  else
    match expr with
    | None => let* l := unwrap left' in Ok (Some (mkComparison None left' (t_typ l) None), i)
    | Some _ => Ok (expr, i)
    end
  end

with parse_expression (fuel i : nat) (toks : list Token) {struct fuel}
  : Result (Expression * nat) :=
  match fuel with 0 => OutOfFuel | S fuel =>
  let* '(left', j) := parse_comparison_expression fuel i toks in
  expression_loop fuel j toks left' None
  end

with expression_loop (fuel i : nat) (toks : list Token) (left' : option ComparisonExpression)
  (expr : option Expression) {struct fuel} : Result (Expression * nat) :=
  match fuel with 0 => OutOfFuel | S fuel =>
  let exit_loop (i : nat) :=
    match expr with
    | None => let* l := unwrap left' in Ok (mkExpression (Comparison l) (c_typ l), i)
    | Some e => Ok (e, i)
    end in
  if Nat.ltb i (length toks) then
    let* t := index toks i in
    if bool_decide (value t = Punctuation "(") then
      let i := S i in
      let* '(nested_expr, k) := parse_expression fuel i toks in
      let i := k in
      let* _ := expect i toks (Punctuation ")") in
      let i := S i in
      expression_loop fuel i toks left' (Some nested_expr)
    else if bool_decide (value t = Arithmetic "+") || bool_decide (value t = Arithmetic "-") then
      let* op := expect i toks (Arithmetic "") in
      let i := S i in
      let* '(right', k) := parse_comparison_expression fuel i toks in
      let i := k in
      let* l := unwrap left' in
      let* r := unwrap right' in
      if bool_decide (c_typ l <> c_typ r) then
        let* t := index toks i in Err (error ETypeMismatch (pos t))
      else
        let* l := unwrap left' in
        let* r := unwrap right' in
        expression_loop fuel i toks left'
          (Some (mkExpression (Binary (mkBinary (Some r) (Some l) (c_typ l) (Some op))) (c_typ l)))
    else exit_loop i
  else exit_loop i
  end.

(** ** Statements (lines 367-483) *)

(** [global_scope.last().unwrap().variables.iter().any(|v| v.0 == &name)] *)
Definition any_key (m : gmap string VariableOptions) (name : string) : bool :=
  existsb (fun kv => bool_decide (kv.1 = name)) (map_to_list m).

(** [global_scope.last_mut().unwrap().variables.insert(name, opts)] *)
Definition insert_last (name : string) (opts : VariableOptions) (sc : list Scope)
  : Result (list Scope) :=
  let* top := unwrap (last sc) in
  Ok (removelast sc ++ [mkScope (<[name := opts]> (variables top)) (functions top)]).

Definition parse_function_declaration (fuel i : nat) (toks : list Token)
  (global_scope : list Scope) : Result (Statement * nat * list Scope) :=
  let i := S i in
  let* name_tok := expect i toks empty_identifier in
  let* name := as_string (value name_tok) in
  let i := S i in
  let* _ := expect i toks (Punctuation "(") in
  (* todo!("parse function arguments") *)
  Panic Todo.

Definition parse_variable_declaration (fuel i : nat) (toks : list Token)
  (global_scope : list Scope) : Result (Statement * nat * list Scope) :=
  let i := S i in
  let* name_tok := expect i toks empty_identifier in
  let* name := as_string (value name_tok) in
  let* top := unwrap (last global_scope) in
  if any_key (variables top) name then
    let* t := index toks i in Err (error (EAlreadyDeclared name) (pos t))
  else
    let i := S i in
    let* _ := expect i toks (Punctuation ":") in
    let i := S i in
    let* type_ident := expect i toks empty_identifier in
    let* typ' := parse_type type_ident in
    let i := S i in
    let* _ := expect i toks (Punctuation "=") in
    let i := S i in
    let* '(expr, j) := parse_expression fuel i toks in
    if bool_decide (typ' <> typ expr) then
      let* t := index toks i in Err (error (ETypeMismatchDecl typ' (typ expr)) (pos t))
    else
      let i := j in
      let* _ := expect i toks (Punctuation ";") in
      let* global_scope := insert_last name (mkVariableOptions false typ') global_scope in
      let* t := index toks i in
      Ok (mkStatement (VariableDeclaration (mkVariableDeclaration name typ' expr)) (pos t),
          S i, global_scope).

Definition parse_expression_statement (fuel i : nat) (toks : list Token)
  (global_scope : list Scope) : Result (Statement * nat * list Scope) :=
  let* '(expr, j) := parse_expression fuel i toks in
  let i := j in
  let* _ := expect i toks (Punctuation ";") in
  let* t := index toks i in
  Ok (mkStatement (ExpressionStatement (mkExpressionStatement (typ expr) expr)) (pos t),
      j, global_scope).

Definition parse_identifier (fuel i : nat) (toks : list Token)
  (global_scope : list Scope) : Result (Statement * nat * list Scope) :=
  let* t := index toks i in
  match value t with
  | Identifier s =>
      if bool_decide (s = "fn") then parse_function_declaration fuel i toks global_scope
      else if bool_decide (s = "let") then parse_variable_declaration fuel i toks global_scope
      else Err (error (EUnknownIdentifier s) (pos t))
  | _ => Err (error EExpectedIdentifier (pos t))
  end.

(** The [while] of [parse_statement] returns in its first iteration, so it is
    an [if]. *)
Definition parse_statement (fuel i : nat) (toks : list Token)
  (global_scope : list Scope) : Result (Statement * nat * list Scope) :=
  let* t0 := index toks i in
  let pos0 := pos t0 in
  if Nat.ltb i (length toks) then
    let* t := index toks i in
    match value t with
    | Identifier _ => parse_identifier fuel i toks global_scope
    | _ => parse_expression_statement fuel i toks global_scope
    end
  else Err (error EUnexpectedEOF pos0).

(** ** The driver [parse] (lines 485-500) *)

(** Fuel for one expression parse: enough by [parse_expression_total]. *)
Definition expr_fuel (toks : list Token) : nat := 5 * length toks + 5.

(** The [while i < toks.len()] loop of [parse], one call per iteration. *)
Fixpoint parse_loop (fuel i : nat) (toks : list Token) (global_scope : list Scope)
  (ast : list Statement) : Result (list Statement) :=
  match fuel with 0 => OutOfFuel | S fuel =>
  if Nat.ltb i (length toks) then
    let* '(stmt, j, scope) := parse_statement (expr_fuel toks) i toks global_scope in
    parse_loop fuel j toks scope (ast ++ [stmt])
  else Ok ast
  end.

Definition initial_scope : list Scope := [mkScope ∅ []].

Definition parse (toks : list Token) : Result (list Statement) :=
  parse_loop (S (length toks)) 0 toks initial_scope [].

(** ** Concrete token streams

    [tokens_from n vs] numbers the token values [vs] as the tokens of one
    line, column [n] onwards. *)
Fixpoint tokens_from (n : nat) (vs : list TokenValue) : list Token :=
  match vs with
  | [] => []
  | v :: vs => mkToken v (mkPos 1 n) :: tokens_from (S n) vs
  end.

Definition tokens (vs : list TokenValue) : list Token := tokens_from 0 vs.

Definition at_col (n : nat) : TokenPos := mkPos 1 n.

Definition I (n : Z) : TokenValue := Integer n.
Definition A (s : string) : TokenValue := Arithmetic s.
Definition P (s : string) : TokenValue := Punctuation s.
Definition Id (s : string) : TokenValue := Identifier s.

(** A Comparison-layer leaf over an integer literal: the node the parser
    builds for a bare operand [v]. *)
Definition cmp_leaf (v : TokenValue) : ComparisonExpression :=
  mkComparison None
    (Some (mkTerm None (Some (mkUnary (mkPrimary v TInteger None) TInteger None))
                  TInteger None))
    TInteger None.

(** The keyword [parse_type] maps to each type. *)
Definition type_keyword (t : ValueType) : string :=
  match t with TInteger => "int" | TString => "str" | TFloat => "float" | TBool => "bool" end.


(** The type [parse_primary_expression] gives a literal token. *)
Definition literal_type (v : TokenValue) : option ValueType :=
  match v with
  | StringV _ => Some TString
  | Integer _ => Some TInteger
  | Float _ => Some TFloat
  | Bool _ => Some TBool
  | _ => None
  end.

(** The tokens after an operand that make one of the expression loops
    go on: a Term or Comparison operator, [(], [+] or [-]. *)
Definition continues_expression (v : TokenValue) : bool :=
  is_term_op v || is_comparison_op v || bool_decide (v = Punctuation "(")
  || bool_decide (v = Arithmetic "+") || bool_decide (v = Arithmetic "-").

(** The top node [parse_expression] returns: a Comparison leaf of the
    expression's type, or a [+]/[-] Binary node whose two operands and
    node carry the expression's type; never another kind. *)
Definition node_typed (e : Expression) : Prop :=
  match kind e with
  | Comparison c => c_typ c = typ e
  | Binary b =>
      exists l r op, b_left b = Some l /\ b_right b = Some r /\ b_op b = Some op /\
        c_typ l = typ e /\ c_typ r = typ e /\ b_typ b = typ e /\
        (value op = Arithmetic "+" \/ value op = Arithmetic "-")
  | _ => False
  end.

(** ** Lemmas on the definitions *)

Lemma index_Ok {A} (l : list A) i x : index l i = Ok x -> i < length l.
Proof.
  unfold index. destruct (nth_error l i) eqn:E; intros H; inversion H; subst.
  apply nth_error_Some. congruence.
Qed.

Lemma index_not_out_of_fuel {A} (l : list A) i : index l i <> OutOfFuel.
Proof. unfold index. destruct (nth_error l i); discriminate. Qed.

Lemma unwrap_not_out_of_fuel {A} (o : option A) : unwrap o <> OutOfFuel.
Proof. destruct o; discriminate. Qed.

Lemma index_nth {A} (l : list A) i x : nth_error l i = Some x -> index l i = Ok x.
Proof. unfold index. intros ->. reflexivity. Qed.

Lemma any_key_spec (m : gmap string VariableOptions) (name : string) :
  any_key m name = true <-> is_Some (m !! name).
Proof.
  unfold any_key. rewrite existsb_exists. split.
  - intros [[k o] [Hin Hk]]. apply bool_decide_eq_true in Hk. simpl in Hk; subst k.
    exists o. apply elem_of_map_to_list. apply list_elem_of_In. exact Hin.
  - intros [o Ho]. exists (name, o). split.
    + apply list_elem_of_In. apply elem_of_map_to_list. exact Ho.
    + apply bool_decide_eq_true. reflexivity.
Qed.

(** With a category pattern, [expect] returns whatever token is at [i]. *)
Lemma expect_category i toks v t :
  nth_error toks i = Some t -> is_category v = true -> expect i toks v = Ok t.
Proof.
  intros Ht Hc. unfold expect.
  assert (Hlt : i < length toks) by (apply nth_error_Some; congruence).
  destruct (Nat.leb_spec (length toks) i); [lia|].
  rewrite (index_nth _ _ _ Ht). simpl. rewrite Hc.
  destruct (bool_decide (value t = v)); reflexivity.
Qed.

(** ** Claims on concrete token streams *)

Definition toks_1_minus_2_minus_3 : list Token :=
  tokens [I 1; A "-"; I 2; A "-"; I 3].

(** C1: [1 - 2 - 3] does not parse as [(1 - 2) - 3].  The
    additive fold rebuilds each node from the first operand [left], so the
    result is the node [1 - 3]: its left operand is the first operand alone
    and the middle operand [2] is lost.  At the Term layer, [1 * 2 * 3]
    panics on the first iteration ([expr.clone().unwrap()] of [None]). *)
Theorem C1_fold_keeps_first_operand :
  parse_expression (expr_fuel toks_1_minus_2_minus_3) 0 toks_1_minus_2_minus_3 =
    Ok (mkExpression
          (Binary (mkBinary (Some (cmp_leaf (I 3))) (Some (cmp_leaf (I 1))) TInteger
                            (Some (mkToken (A "-") (at_col 3)))))
          TInteger, 5)
  /\ parse_expression 20 0 (tokens [I 1; A "*"; I 2; A "*"; I 3]) = Panic UnwrapNone.
Proof. split; vm_compute; reflexivity. Qed.

(** C2: a category pattern is matched against the pattern's own
    variant, not the token's: [expect] with the punctuation pattern [";"]
    returns an integer token instead of failing. *)
Theorem C2_expect_accepts_other_category :
  expect 0 (tokens [I 1]) (P ";") = Ok (mkToken (I 1) (at_col 0))
  /\ expect 0 (tokens [I 1]) (Id "let") = Ok (mkToken (I 1) (at_col 0)).
Proof. split; vm_compute; reflexivity. Qed.

Definition toks_truncated_let : list Token :=
  tokens [Id "let"; Id "x"; P ":"; Id "int"; P "="].

(** C3: the truncated declaration [let x: int =] panics (index
    out of range) instead of failing with "Unexpected end of file", and
    [expect] past the end panics too: its end-of-file branch reads
    [toks[*i].pos]. *)
Theorem C3_truncated_input_panics :
  parse toks_truncated_let = Panic IndexOutOfBounds
  /\ expect 1 (tokens [I 1]) (P ";") = Panic IndexOutOfBounds.
Proof. split; vm_compute; reflexivity. Qed.

Definition toks_1_plus_2_times_3 : list Token :=
  tokens [I 1; A "+"; I 2; A "*"; I 3; P ";"].

(** C4: [1 + 2 * 3;] does not parse: the Term loop unwraps its
    empty accumulator on its first iteration and panics. *)
Theorem C4_precedence_input_panics :
  parse_expression (expr_fuel toks_1_plus_2_times_3) 0 toks_1_plus_2_times_3 = Panic UnwrapNone
  /\ parse toks_1_plus_2_times_3 = Panic UnwrapNone.
Proof. split; vm_compute; reflexivity. Qed.

Definition toks_1_plus_a : list Token := tokens [I 1; A "+"; StringV "a"; P ";"].

(** C5: in [1 + "a";] the type mismatch is reported at column 3,
    the token after the right operand, not at column 2 where ["a"] starts;
    without the [;] the same report indexes past the end and panics; and
    two equal-typed operands at the Term layer panic instead of combining. *)
Theorem C5_mismatch_position_after_operand :
  parse_expression (expr_fuel toks_1_plus_a) 0 toks_1_plus_a =
    Err (error ETypeMismatch (at_col 3))
  /\ parse_expression 20 0 (tokens [I 1; A "+"; StringV "a"]) = Panic IndexOutOfBounds
  /\ parse_expression 20 0 (tokens [I 1; A "*"; I 2; P ";"]) = Panic UnwrapNone.
Proof. repeat split; vm_compute; reflexivity. Qed.

(** C6: the Additive layer has no [;] lookahead, so in [1 + ;]
    the [+] is consumed and the parse fails on the [;] at column 2; and the
    Term lookahead [toks[i + 1]] on a trailing [*] reads past the end and
    panics. *)
Theorem C6_lookahead_missing_and_unbounded :
  parse_expression 20 0 (tokens [I 1; A "+"; P ";"]) = Err (error EUnexpectedPrimary (at_col 2))
  /\ parse_expression 20 0 (tokens [I 1; A "*"]) = Panic IndexOutOfBounds.
Proof. split; vm_compute; reflexivity. Qed.

Definition toks_1_semi : list Token := tokens [I 1; P ";"].

(** C7: [parse_expression_statement] returns the position of
    its [;] (1 for [1;]), not the one after it, so the driver parses the
    [;] as the next statement and [1;] fails at column 1. *)
Theorem C7_statement_returns_semicolon_position :
  (exists stmt, parse_expression_statement (expr_fuel toks_1_semi) 0 toks_1_semi initial_scope
                = Ok (stmt, 1, initial_scope))
  /\ parse toks_1_semi = Err (error EUnexpectedPrimary (at_col 1)).
Proof. split; [eexists|]; vm_compute; reflexivity. Qed.

(** ** Scope bookkeeping of declarations *)

(** Inverts a hypothesis [H : <monadic code> = Ok _] one step: cases on the
    first bind, [if] or pair [match] whose scrutinee is closed. *)
Ltac res_red H :=
  cbn -[index expect op_guard insert_last expr_fuel parse_expression_statement parse_identifier
        parse_function_declaration parse_variable_declaration] in H;
  try discriminate H.

Ltac res_step H :=
  match type of H with
  | context [if ?b then _ else _] =>
      let E := fresh "E" in destruct b eqn:E; res_red H
  | context [res_bind ?m _] =>
      let E := fresh "E" in destruct m as [?| | |] eqn:E; res_red H
  | context [match ?p with pair _ _ => _ end] => destruct p; res_red H
  | context [match ?o with Some _ => _ | None => _ end] => destruct o; res_red H
  | context [value ?t] =>
      lazymatch type of H with
      | Ok _ = _ => fail
      | _ => destruct (value t); res_red H
      end
  end.

Ltac res_inv H := repeat (res_step H).

Lemma Forall_last_removelast {X} (Q : X -> Prop) (l : list X) (x : X) :
  Forall Q l -> last l = Some x -> Q x /\ Forall Q (removelast l).
Proof.
  intros HF Hl. apply last_Some in Hl as [l' ->].
  rewrite removelast_last. apply Forall_app in HF as [HF1 HF2].
  inversion HF2; subst. auto.
Qed.

(** C8: when the token after [let] is the identifier [name], and [name] is
    already a key of the innermost scope, the declaration fails with
    "already declared" at the position of that token; when it is not, a
    successful declaration returns the scope stack with [name] inserted
    into the innermost scope and nothing else changed. *)
Theorem C8_redeclaration_current_scope (fuel i : nat) (toks : list Token)
  (sc : list Scope) (top : Scope) (name : string) (p : TokenPos) :
  last sc = Some top ->
  nth_error toks (S i) = Some (mkToken (Identifier name) p) ->
  (is_Some (variables top !! name) ->
     parse_variable_declaration fuel i toks sc = Err (error (EAlreadyDeclared name) p)) /\
  (variables top !! name = None ->
     forall stmt j sc', parse_variable_declaration fuel i toks sc = Ok (stmt, j, sc') ->
     exists opts, sc' = removelast sc ++
                         [mkScope (<[name := opts]> (variables top)) (functions top)]).
Proof.
  intros Hlast Htok.
  assert (Hexp : expect (S i) toks empty_identifier = Ok (mkToken (Identifier name) p))
    by (apply expect_category; [exact Htok | reflexivity]).
  split.
  - intros Hin. unfold parse_variable_declaration. rewrite Hexp. cbn.
    rewrite Hlast. cbn.
    apply any_key_spec in Hin. rewrite Hin.
    rewrite (index_nth _ _ _ Htok). reflexivity.
  - intros Hnone stmt j sc' H. unfold parse_variable_declaration in H.
    rewrite Hexp in H. cbn in H. rewrite Hlast in H. cbn in H.
    destruct (any_key (variables top) name) eqn:Hk.
    { apply any_key_spec in Hk. rewrite Hnone in Hk. destruct Hk; discriminate. }
    res_inv H.
    unfold insert_last in *. rewrite Hlast in *. cbn in *.
    all: unfold insert_last in *; try rewrite Hlast in *; cbn in *.
    all: repeat match goal with
                | E : Ok _ = Ok _ |- _ => injection E as E; subst
                end.
    all: eexists; reflexivity.
Qed.

(** A doubled declaration [let x: int = 1; let x: int = 2;]. *)
Definition toks_let_x_twice : list Token :=
  tokens [Id "let"; Id "x"; P ":"; Id "int"; P "="; I 1; P ";";
          Id "let"; Id "x"; P ":"; Id "int"; P "="; I 2; P ";"].

Definition scope_with_x : list Scope :=
  [mkScope {[ "x" := mkVariableOptions false TInteger ]} []].

Lemma C8_redeclaration_current_scope_witness :
  (parse_variable_declaration (expr_fuel toks_let_x_twice) 7 toks_let_x_twice scope_with_x
   = Err (error (EAlreadyDeclared "x") (at_col 8)))
  /\ parse toks_let_x_twice = Err (error (EAlreadyDeclared "x") (at_col 8)).
Proof.
  split.
  - apply (proj1 (C8_redeclaration_current_scope (expr_fuel toks_let_x_twice) 7
                    toks_let_x_twice scope_with_x
                    (mkScope {[ "x" := mkVariableOptions false TInteger ]} []) "x" (at_col 8)
                    eq_refl eq_refl)).
    exists (mkVariableOptions false TInteger). reflexivity.
  - vm_compute. reflexivity.
Defined.

(** ** The mutability flag *)

(** No entry of any scope of the stack is mutable. *)
Definition all_immutable (sc : list Scope) : Prop :=
  Forall (fun s => map_Forall (fun _ o => mutable o = false) (variables s)) sc.

(** One iteration of the driver loop of [parse]: the state is the loop's
    [i], [global_scope] and [ast]. *)
Inductive driver_step (toks : list Token)
  : nat * list Scope * list Statement -> nat * list Scope * list Statement -> Prop :=
  | driver_stmt i sc ast stmt j sc' :
      i < length toks ->
      parse_statement (expr_fuel toks) i toks sc = Ok (stmt, j, sc') ->
      driver_step toks (i, sc, ast) (j, sc', ast ++ [stmt]).

(** The driver states reachable from the initial one of [parse]. *)
Definition reachable (toks : list Token) (st : nat * list Scope * list Statement) : Prop :=
  rtc (driver_step toks) (0, initial_scope, []) st.

Lemma insert_last_immutable name o sc sc' :
  all_immutable sc -> mutable o = false -> insert_last name o sc = Ok sc' ->
  all_immutable sc'.
Proof.
  unfold insert_last, all_immutable. intros Hsc Ho H.
  destruct (last sc) as [top|] eqn:Hl; cbn in H; [|discriminate].
  injection H as <-.
  destruct (Forall_last_removelast _ _ _ Hsc Hl) as [Htop Hrest].
  apply Forall_app. split; [exact Hrest|].
  constructor; [|constructor]. cbn.
  apply map_Forall_insert_2; assumption.
Qed.

Lemma parse_statement_immutable fuel i toks sc stmt j sc' :
  all_immutable sc -> parse_statement fuel i toks sc = Ok (stmt, j, sc') ->
  all_immutable sc'.
Proof.
  intros Hsc H. unfold parse_statement in H. res_inv H.
  all: try (unfold parse_expression_statement in H; res_inv H;
            injection H as _ _ <-; exact Hsc).
  all: unfold parse_identifier in H; res_inv H.
  all: try (unfold parse_function_declaration in H; res_inv H; fail).
  all: unfold parse_variable_declaration in H; res_inv H.
  all: injection H as _ _ <-; eapply insert_last_immutable; eauto; reflexivity.
Qed.

Lemma enter_scope_immutable sc : all_immutable sc -> all_immutable (enter_scope sc).
Proof.
  unfold enter_scope, all_immutable. intros H. apply Forall_app. split; [exact H|].
  constructor; [|constructor].
  destruct (last sc) eqn:Hl.
  - exact (proj1 (Forall_last_removelast _ _ _ H Hl)).
  - apply map_Forall_empty.
Qed.

Lemma exit_scope_immutable sc : all_immutable sc -> all_immutable (exit_scope sc).
Proof.
  unfold exit_scope, all_immutable. intros H.
  destruct (last sc) eqn:Hl.
  - exact (proj2 (Forall_last_removelast _ _ _ H Hl)).
  - apply last_None in Hl. subst. constructor.
Qed.

(** C10: every scope stack the driver of [parse] ever holds has only
    entries with [mutable = false], and [enter_scope] / [exit_scope] keep
    that so: the parser never records a mutable variable. *)
Theorem C10_no_mutable_variable (toks : list Token) (i : nat) (sc : list Scope)
  (ast : list Statement) :
  reachable toks (i, sc, ast) -> all_immutable sc
  /\ all_immutable (enter_scope sc) /\ all_immutable (exit_scope sc).
Proof.
  unfold reachable. intros H.
  assert (Hinv : forall st st', rtc (driver_step toks) st st' ->
                 all_immutable (snd (fst st)) -> all_immutable (snd (fst st'))).
  { intros st st' Hr. induction Hr as [st|st1 st2 st3 Hs Hr IH]; [auto|].
    intros H1. apply IH. destruct Hs. cbn in *.
    eapply parse_statement_immutable; eauto. }
  assert (Hsc : all_immutable sc).
  { apply (Hinv _ _ H). cbn. constructor; [apply map_Forall_empty|constructor]. }
  split; [exact Hsc|]. split; [apply enter_scope_immutable | apply exit_scope_immutable]; exact Hsc.
Qed.

Definition toks_let_x : list Token :=
  tokens [Id "let"; Id "x"; P ":"; Id "int"; P "="; I 1; P ";"].

(** The statement [let x: int = 1;] parses to. *)
Definition stmt_let_x : Statement :=
  mkStatement (VariableDeclaration
                 (mkVariableDeclaration "x" TInteger
                    (mkExpression (Comparison (cmp_leaf (I 1))) TInteger)))
              (at_col 6).

Lemma C10_no_mutable_variable_witness :
  reachable toks_let_x (7, scope_with_x, [stmt_let_x]) /\ all_immutable scope_with_x.
Proof.
  assert (Hr : reachable toks_let_x (7, scope_with_x, [stmt_let_x])).
  { unfold reachable. eapply rtc_l; [|apply rtc_refl].
    apply (driver_stmt toks_let_x 0 initial_scope [] stmt_let_x 7 scope_with_x).
    - cbn. lia.
    - vm_compute. reflexivity. }
  split; [exact Hr|].
  exact (proj1 (C10_no_mutable_variable _ _ _ _ Hr)).
Defined.

(** ** Termination *)

Lemma op_guard_true is_op i toks :
  op_guard is_op i toks = Ok true -> S i < length toks.
Proof.
  unfold op_guard. intros H. res_inv H. eapply index_Ok. eassumption.
Qed.

(** The [Ok] results of the expression layers, as position facts. *)
Definition Advances (n i : nat) (toks : list Token) : Prop :=
  (forall x j, parse_primary_expression n i toks = Ok (x, j) -> i < j) /\
  (forall x j, parse_unary_expression n i toks = Ok (x, j) -> i < j) /\
  (forall x j, parse_term_expression n i toks = Ok (x, j) -> i < j) /\
  (forall l e x j, term_loop n i toks l e = Ok (x, j) -> i <= j) /\
  (forall x j, parse_comparison_expression n i toks = Ok (x, j) -> i < j) /\
  (forall l e x j, comparison_loop n i toks l e = Ok (x, j) -> i <= j) /\
  (forall x j, parse_expression n i toks = Ok (x, j) -> i < j) /\
  (forall l e x j, expression_loop n i toks l e = Ok (x, j) -> i <= j).

(** Turns every [Ok] equation on a layer at fuel [n] into the position fact
    of [Advances]. *)
Ltac advance_facts adv n :=
  repeat match goal with
  | E : parse_primary_expression n ?i ?t = Ok (_, _) |- _ =>
      let F := fresh "F" in destruct (adv i t) as (F & _); apply F in E
  | E : parse_unary_expression n ?i ?t = Ok (_, _) |- _ =>
      let F := fresh "F" in destruct (adv i t) as (_ & F & _); apply F in E
  | E : parse_term_expression n ?i ?t = Ok (_, _) |- _ =>
      let F := fresh "F" in destruct (adv i t) as (_ & _ & F & _); apply F in E
  | E : term_loop n ?i ?t _ _ = Ok (_, _) |- _ =>
      let F := fresh "F" in destruct (adv i t) as (_ & _ & _ & F & _); apply F in E
  | E : parse_comparison_expression n ?i ?t = Ok (_, _) |- _ =>
      let F := fresh "F" in destruct (adv i t) as (_ & _ & _ & _ & F & _); apply F in E
  | E : comparison_loop n ?i ?t _ _ = Ok (_, _) |- _ =>
      let F := fresh "F" in destruct (adv i t) as (_ & _ & _ & _ & _ & F & _); apply F in E
  | E : parse_expression n ?i ?t = Ok (_, _) |- _ =>
      let F := fresh "F" in destruct (adv i t) as (_ & _ & _ & _ & _ & _ & F & _); apply F in E
  | E : expression_loop n ?i ?t _ _ = Ok (_, _) |- _ =>
      let F := fresh "F" in destruct (adv i t) as (_ & _ & _ & _ & _ & _ & _ & F); apply F in E
  | E : index _ _ = Ok _ |- _ => apply index_Ok in E
  | E : op_guard _ _ _ = Ok true |- _ => apply op_guard_true in E
  | E : Nat.ltb _ _ = true |- _ => apply Nat.ltb_lt in E
  end.

Lemma parse_advances n : forall i toks, Advances n i toks.
Proof.
  induction n as [|n IH]; intros i toks.
  { repeat split; intros; discriminate. }
  repeat split; intros * H; cbn -[op_guard expect] in H; res_inv H.
  all: advance_facts IH n.
  all: try (injection H as <- <-; lia); lia.
Qed.

(** Fuel bounds of the expression layers: each call either descends a
    layer at the same position or moves to a later one, so
    [5 * (length toks - i) + rank] units of fuel suffice. *)
Definition Terminates (n i : nat) (toks : list Token) : Prop :=
  let m := 5 * (length toks - i) in
  (m < n -> parse_primary_expression n i toks <> OutOfFuel) /\
  (m + 1 < n -> parse_unary_expression n i toks <> OutOfFuel) /\
  (m + 2 < n -> parse_term_expression n i toks <> OutOfFuel) /\
  (m < n -> forall l e, term_loop n i toks l e <> OutOfFuel) /\
  (m + 3 < n -> parse_comparison_expression n i toks <> OutOfFuel) /\
  (m < n -> forall l e, comparison_loop n i toks l e <> OutOfFuel) /\
  (m + 4 < n -> parse_expression n i toks <> OutOfFuel) /\
  (m < n -> forall l e, expression_loop n i toks l e <> OutOfFuel).

(** Closes a goal [False] from an equation [E : layer n i toks = OutOfFuel]
    with the fuel bound [term]. *)
Ltac no_fuel_out term n :=
  match goal with
  | E : parse_primary_expression n ?i ?t = OutOfFuel |- _ =>
      let F := fresh "G" in destruct (term i t) as (F & _); apply (F ltac:(lia) E)
  | E : parse_unary_expression n ?i ?t = OutOfFuel |- _ =>
      let F := fresh "G" in destruct (term i t) as (_ & F & _); apply (F ltac:(lia) E)
  | E : parse_term_expression n ?i ?t = OutOfFuel |- _ =>
      let F := fresh "G" in destruct (term i t) as (_ & _ & F & _); apply (F ltac:(lia) E)
  | E : term_loop n ?i ?t _ _ = OutOfFuel |- _ =>
      let F := fresh "G" in destruct (term i t) as (_ & _ & _ & F & _); apply (F ltac:(lia) _ _ E)
  | E : parse_comparison_expression n ?i ?t = OutOfFuel |- _ =>
      let F := fresh "G" in destruct (term i t) as (_ & _ & _ & _ & F & _); apply (F ltac:(lia) E)
  | E : comparison_loop n ?i ?t _ _ = OutOfFuel |- _ =>
      let F := fresh "G" in destruct (term i t) as (_ & _ & _ & _ & _ & F & _); apply (F ltac:(lia) _ _ E)
  | E : parse_expression n ?i ?t = OutOfFuel |- _ =>
      let F := fresh "G" in destruct (term i t) as (_ & _ & _ & _ & _ & _ & F & _); apply (F ltac:(lia) E)
  | E : expression_loop n ?i ?t _ _ = OutOfFuel |- _ =>
      let F := fresh "G" in destruct (term i t) as (_ & _ & _ & _ & _ & _ & _ & F); apply (F ltac:(lia) _ _ E)
  end.

Lemma expect_not_out_of_fuel i toks v : expect i toks v <> OutOfFuel.
Proof.
  unfold expect. intros H. res_inv H.
  all: eapply index_not_out_of_fuel; eassumption.
Qed.

Lemma op_guard_not_out_of_fuel is_op i toks : op_guard is_op i toks <> OutOfFuel.
Proof.
  unfold op_guard. intros H. res_inv H.
  all: eapply index_not_out_of_fuel; eassumption.
Qed.

Lemma parse_terminates n : forall i toks, Terminates n i toks.
Proof.
  induction n as [|n IH]; intros i toks.
  { repeat split; intros; lia. }
  repeat split; intros Hn *; intros H; cbn -[op_guard expect] in H; res_inv H.
  all: try (exfalso; eapply expect_not_out_of_fuel; eassumption).
  all: try (exfalso; eapply op_guard_not_out_of_fuel; eassumption).
  all: try (exfalso; eapply index_not_out_of_fuel; eassumption).
  all: try (exfalso; eapply unwrap_not_out_of_fuel; eassumption).
  all: advance_facts (parse_advances n) n.
  all: no_fuel_out IH n.
Qed.

Lemma parse_expression_total i toks : parse_expression (expr_fuel toks) i toks <> OutOfFuel.
Proof.
  destruct (parse_terminates (expr_fuel toks) i toks) as (_ & _ & _ & _ & _ & _ & H & _).
  apply H. unfold expr_fuel. lia.
Qed.

Lemma insert_last_not_out_of_fuel name o sc : insert_last name o sc <> OutOfFuel.
Proof. unfold insert_last. destruct (last sc); discriminate. Qed.

Lemma as_string_not_out_of_fuel v : as_string v <> OutOfFuel.
Proof. destruct v; discriminate. Qed.

Lemma parse_type_not_out_of_fuel t : parse_type t <> OutOfFuel.
Proof. unfold parse_type. intros H. res_inv H. Qed.

(** A successful statement parse ends strictly after where it starts. *)
Lemma parse_statement_advances f i toks sc stmt j sc' :
  parse_statement f i toks sc = Ok (stmt, j, sc') -> i < j.
Proof.
  intros H. unfold parse_statement in H. res_inv H.
  all: try (unfold parse_expression_statement in H; res_inv H;
            injection H as _ <- _; advance_facts (parse_advances f) f; lia).
  all: unfold parse_identifier in H; res_inv H.
  all: try (unfold parse_function_declaration in H; res_inv H; fail).
  all: unfold parse_variable_declaration in H; res_inv H.
  all: injection H as _ <- _; advance_facts (parse_advances f) f; lia.
Qed.

Ltac no_prim_fuel_out :=
  exfalso;
  first [ eapply expect_not_out_of_fuel; eassumption
        | eapply index_not_out_of_fuel; eassumption
        | eapply unwrap_not_out_of_fuel; eassumption
        | eapply insert_last_not_out_of_fuel; eassumption
        | eapply as_string_not_out_of_fuel; eassumption
        | eapply parse_type_not_out_of_fuel; eassumption
        | eapply parse_expression_total; eassumption ].

Lemma parse_statement_not_out_of_fuel i toks sc :
  parse_statement (expr_fuel toks) i toks sc <> OutOfFuel.
Proof.
  intros H. unfold parse_statement in H. res_inv H.
  all: try (unfold parse_expression_statement in H; res_inv H).
  all: try (unfold parse_identifier in H; res_inv H).
  all: try (unfold parse_function_declaration in H; res_inv H).
  all: try (unfold parse_variable_declaration in H; res_inv H).
  all: no_prim_fuel_out.
Qed.

Lemma parse_loop_not_out_of_fuel n : forall i toks sc ast,
  length toks - i < n -> parse_loop n i toks sc ast <> OutOfFuel.
Proof.
  induction n as [|n IH]; intros i toks sc ast Hn H; [lia|].
  cbn -[expr_fuel parse_statement] in H. res_inv H.
  - apply Nat.ltb_lt in E.
    match goal with
    | E0 : parse_statement _ _ _ _ = Ok _ |- _ => apply parse_statement_advances in E0
    end.
    eapply IH; [|exact H]. lia.
  - eapply parse_statement_not_out_of_fuel. eassumption.
Qed.

(** C9, as amended: [parse] terminates on every token stream (it never runs
    out of the fuel bounded by the stream's length); every layer of the
    expression parser advances or keeps the position with fuel
    [5 * (length toks - i) + rank], and every successful statement parse
    strictly advances the position. *)
Theorem C9_parse_terminates :
  (forall toks, parse toks <> OutOfFuel) /\
  (forall n i toks, Advances n i toks /\ Terminates n i toks) /\
  (forall f i toks sc stmt j sc',
     parse_statement f i toks sc = Ok (stmt, j, sc') -> i < j).
Proof.
  split; [|split].
  - intros toks. unfold parse. apply parse_loop_not_out_of_fuel. lia.
  - intros n i toks. split; [apply parse_advances | apply parse_terminates].
  - exact parse_statement_advances.
Qed.

Definition toks_fn_decl : list Token :=
  tokens [Id "fn"; Id "f"; P "("; P ")"; P "->"; Id "int"; P "{"; P "}"].

(** C9 as stated fails: a function declaration reaches the [todo!()] of
    [parse_function_declaration], so [parse] returns neither a statement
    list nor an error. *)
Lemma C9_fn_declaration_panics :
  ~ ((exists ast, parse toks_fn_decl = Ok ast) \/ (exists e, parse toks_fn_decl = Err e)).
Proof.
  assert (H : parse toks_fn_decl = Panic Todo) by (vm_compute; reflexivity).
  rewrite H. intros [[ast Hok] | [e Herr]]; discriminate.
Qed.

(** ** Further properties of the parser *)

(** [parse_type] accepts exactly the four type keywords, each for its own
    type; on any other token it fails with an error at that token's
    position and never panics. *)
Theorem parse_type_keywords (tok : Token) :
  (forall ty, parse_type tok = Ok ty <-> value tok = Identifier (type_keyword ty)) /\
  ((exists ty, parse_type tok = Ok ty) \/ (exists m, parse_type tok = Err (error m (pos tok)))).
Proof.
  destruct tok as [v p]. unfold parse_type. cbn. split.
  - intros ty. destruct v; cbn; try (split; [discriminate | intros Hv; discriminate Hv]).
    destruct ty; cbn; repeat case_bool_decide; subst; split; intros Hv; congruence.
  - destruct v; cbn; try (right; eexists; reflexivity).
    repeat case_bool_decide; try (left; eexists; reflexivity); right; eexists; reflexivity.
Qed.



(** At or past the end of the stream [expect] always panics: its
    "Unexpected end of file" error is never returned. *)
Theorem expect_past_end_panics (i : nat) (toks : list Token) (v : TokenValue) :
  length toks <= i -> expect i toks v = Panic IndexOutOfBounds.
Proof.
  intros Hi. unfold expect.
  destruct (Nat.leb_spec (length toks) i); [|lia].
  unfold index. rewrite (proj2 (nth_error_None toks i) Hi). reflexivity.
Qed.

Lemma expect_past_end_panics_witness :
  length (tokens [I 1]) <= 3 /\ expect 3 (tokens [I 1]) (P ")") = Panic IndexOutOfBounds.
Proof. split; [cbn; lia | apply expect_past_end_panics; cbn; lia]. Defined.

(** The loop guard is false when the token at [i] is not an operator
    (or there is none). *)
Lemma op_guard_false is_op i toks :
  (forall t, nth_error toks i = Some t -> is_op (value t) = false) ->
  op_guard is_op i toks = Ok false.
Proof.
  intros H. unfold op_guard.
  destruct (Nat.ltb_spec i (length toks)) as [Hlt|]; [|reflexivity].
  destruct (nth_error toks i) as [t|] eqn:E.
  - rewrite (index_nth _ _ _ E). cbn. rewrite (H t eq_refl). reflexivity.
  - apply nth_error_None in E. lia.
Qed.

(** A literal operand followed by a token that does not continue the
    expression (or by nothing) parses, through all layers, to a chain of
    leaves carrying the literal's own type (string, integer, float, bool),
    and the parse stops right after the literal. *)
Theorem literal_operand_type (i : nat) (toks : list Token) (t : Token) (ty : ValueType) :
  nth_error toks i = Some t -> literal_type (value t) = Some ty ->
  (forall t', nth_error toks (S i) = Some t' -> continues_expression (value t') = false) ->
  parse_expression (expr_fuel toks) i toks =
    Ok (mkExpression
          (Comparison (mkComparison None
             (Some (mkTerm None (Some (mkUnary (mkPrimary (value t) ty None) ty None)) ty None))
             ty None)) ty, S i).
Proof.
  intros Ht Hty Hnext.
  assert (Hterm : op_guard is_term_op (S i) toks = Ok false).
  { apply op_guard_false. intros t' E. specialize (Hnext t' E).
    unfold continues_expression in Hnext.
    destruct (is_term_op (value t')); [discriminate|reflexivity]. }
  assert (Hcmp : op_guard is_comparison_op (S i) toks = Ok false).
  { apply op_guard_false. intros t' E. specialize (Hnext t' E).
    unfold continues_expression in Hnext.
    destruct (is_comparison_op (value t')), (is_term_op (value t')); easy. }
  replace (expr_fuel toks) with (S (S (S (S (S (5 * length toks)))))) by (unfold expr_fuel; lia).
  cbn -[op_guard index expect Nat.ltb Nat.mul].
  rewrite (index_nth _ _ _ Ht). cbn -[op_guard index expect Nat.ltb Nat.mul].
  destruct t as [v p]. cbn in Hty. cbn -[op_guard index expect Nat.ltb Nat.mul].
  assert (Hsign : bool_decide (v = Arithmetic "-") || bool_decide (v = Arithmetic "+") = false)
    by (destruct v; try discriminate Hty; reflexivity).
  rewrite Hsign. cbn -[op_guard index expect Nat.ltb Nat.mul].
  destruct v; try discriminate Hty; injection Hty as <-;
    cbn -[op_guard index expect Nat.ltb Nat.mul]; rewrite Hterm; cbn -[op_guard index expect Nat.ltb Nat.mul];
    rewrite Hcmp; cbn -[op_guard index expect Nat.ltb Nat.mul];
    (destruct (nth_error toks (S i)) as [t'|] eqn:E;
     [ specialize (Hnext t' eq_refl);
       assert (Hl : S i < length toks) by (apply nth_error_Some; congruence);
       apply Nat.ltb_lt in Hl; rewrite Hl; rewrite (index_nth _ _ _ E); cbn -[Nat.mul];
       unfold continues_expression in Hnext;
       destruct (bool_decide (value t' = Punctuation "(")),
                (bool_decide (value t' = Arithmetic "+")),
                (bool_decide (value t' = Arithmetic "-"));
       rewrite ?orb_true_r in Hnext; try discriminate Hnext; reflexivity
     | apply nth_error_None in E;
       assert (Hl : Nat.ltb (S i) (length toks) = false) by (apply Nat.ltb_ge; lia);
       rewrite Hl; reflexivity ]).
Qed.

Lemma literal_operand_type_witness :
  parse_expression (expr_fuel (tokens [StringV "a"; P ";"])) 0 (tokens [StringV "a"; P ";"]) =
    Ok (mkExpression
          (Comparison (mkComparison None
             (Some (mkTerm None (Some (mkUnary (mkPrimary (StringV "a") TString None)
                                               TString None)) TString None))
             TString None)) TString, 1).
Proof.
  apply (literal_operand_type 0 (tokens [StringV "a"; P ";"]) (mkToken (StringV "a") (at_col 0))
           TString eq_refl eq_refl).
  intros t' E. injection E as <-. reflexivity.
Defined.



(** A [(] group in primary position is closed by whatever token follows
    the inner expression: the [expect(")")] accepts any punctuation and,
    being a category pattern, any token at all; the group is a [Nested]
    primary with the inner expression's type, and only a missing token
    (end of input) makes it panic. *)
Theorem paren_group_closes_on_any_token (n i : nat) (toks : list Token) (t : Token)
  (e : Expression) (k : nat) :
  nth_error toks i = Some t -> value t = Punctuation "(" ->
  parse_expression n (S i) toks = Ok (e, k) ->
  parse_primary_expression (S n) i toks =
    if Nat.ltb k (length toks) then Ok (mkPrimary Nested (typ e) (Some e), S k)
    else Panic IndexOutOfBounds.
Proof.
  intros Ht Hv He. cbn -[index expect Nat.ltb]. rewrite (index_nth _ _ _ Ht).
  cbn -[expect Nat.ltb]. rewrite Hv. rewrite bool_decide_true by reflexivity.
  rewrite He. cbn -[expect Nat.ltb].
  destruct (Nat.ltb_spec k (length toks)) as [Hk|Hk].
  - destruct (nth_error toks k) as [c|] eqn:Ec.
    + rewrite (expect_category k toks (Punctuation ")") c Ec eq_refl). reflexivity.
    + apply nth_error_None in Ec. lia.
  - unfold expect. destruct (Nat.leb_spec (length toks) k); [|lia].
    unfold index. rewrite (proj2 (nth_error_None toks k) Hk). reflexivity.
Qed.

Lemma paren_group_closes_on_any_token_witness :
  parse_primary_expression 11 0 (tokens [P "("; I 1; P ";"]) =
    Ok (mkPrimary Nested TInteger (Some (mkExpression (Comparison (cmp_leaf (I 1))) TInteger)), 3).
Proof.
  exact (paren_group_closes_on_any_token 10 0 (tokens [P "("; I 1; P ";"])
           (mkToken (P "(") (at_col 0)) (mkExpression (Comparison (cmp_leaf (I 1))) TInteger) 2
           eq_refl eq_refl ltac:(vm_compute; reflexivity)).
Defined.

(** When the operands of a [+] or [-] have different types, the
    expression parse fails with "Type mismatch" at the token after the
    right operand, and panics when the right operand ends the input. *)
Theorem additive_mismatch_position (n i : nat) (toks : list Token)
  (l r : ComparisonExpression) (j k : nat) (op : Token) :
  parse_comparison_expression (S n) i toks = Ok (Some l, j) ->
  nth_error toks j = Some op ->
  (value op = Arithmetic "+" \/ value op = Arithmetic "-") ->
  parse_comparison_expression n (S j) toks = Ok (Some r, k) ->
  c_typ l <> c_typ r ->
  parse_expression (S (S n)) i toks =
    match nth_error toks k with
    | Some t => Err (error ETypeMismatch (pos t))
    | None => Panic IndexOutOfBounds
    end.
Proof.
  intros Hl Hop Hv Hr Hne.
  cbn -[index expect parse_comparison_expression Nat.ltb]. rewrite Hl.
  cbn -[index expect parse_comparison_expression Nat.ltb].
  assert (Hj : j < length toks) by (apply nth_error_Some; congruence).
  apply Nat.ltb_lt in Hj. rewrite Hj. rewrite (index_nth _ _ _ Hop). cbn -[expect parse_comparison_expression].
  assert (Hb : bool_decide (value op = Punctuation "(") = false)
    by (destruct Hv as [-> | ->]; reflexivity).
  assert (Hb' : bool_decide (value op = Arithmetic "+") || bool_decide (value op = Arithmetic "-")
               = true) by (destruct Hv as [-> | ->]; reflexivity).
  rewrite Hb, Hb'. rewrite (expect_category j toks (Arithmetic "") op Hop eq_refl).
  cbn -[parse_comparison_expression]. rewrite Hr. cbn.
  rewrite (bool_decide_true _ Hne). unfold index. destruct (nth_error toks k); reflexivity.
Qed.

Lemma additive_mismatch_position_witness :
  parse_expression 12 0 (tokens [I 1; A "-"; Bool true]) = Panic IndexOutOfBounds.
Proof.
  exact (additive_mismatch_position 10 0 (tokens [I 1; A "-"; Bool true]) (cmp_leaf (I 1))
           (mkComparison None
              (Some (mkTerm None (Some (mkUnary (mkPrimary (Bool true) TBool None) TBool None))
                            TBool None)) TBool None)
           1 3 (mkToken (A "-") (at_col 1))
           ltac:(vm_compute; reflexivity) eq_refl (or_intror eq_refl)
           ltac:(vm_compute; reflexivity) ltac:(discriminate)).
Defined.

(** The Term layer only ever succeeds with a leaf: the unary operand it
    parsed first, with no operator and no right operand, at the position
    after that operand (an iteration of its loop always fails or panics). *)
Theorem term_layer_returns_leaf (n i : nat) (toks : list Token)
  (x : option TermExpression) (j : nat) :
  parse_term_expression n i toks = Ok (x, j) ->
  exists u, parse_unary_expression (pred n) i toks = Ok (u, j) /\
            x = Some (mkTerm None (Some u) (u_typ u) None).
Proof.
  intros H. destruct n as [|n]; [discriminate H|]. cbn -[parse_unary_expression term_loop] in H.
  destruct (parse_unary_expression n i toks) as [[u j']| | |] eqn:Eu; cbn in H; try discriminate H.
  destruct n as [|n]; [discriminate H|].
  cbn -[op_guard expect parse_unary_expression] in H.
  destruct (op_guard is_term_op j' toks) as [[|]| | |]; cbn -[expect parse_unary_expression] in H;
    try discriminate H.
  - destruct (expect j' toks (Arithmetic "")); cbn -[parse_unary_expression] in H; try discriminate H.
    destruct (parse_unary_expression n (S j') toks) as [[u2 k]| | |]; cbn in H; try discriminate H.
    destruct (bool_decide (u_typ u <> u_typ u2)); [|discriminate H].
    destruct (index toks k); discriminate H.
  - injection H as <- <-. exists u. split; [exact Eu | reflexivity].
Qed.

Lemma term_layer_returns_leaf_witness :
  parse_term_expression 6 0 (tokens [I 2; A "*"; P ";"]) =
    Ok (Some (mkTerm None (Some (mkUnary (mkPrimary (I 2) TInteger None) TInteger None))
                     TInteger None), 1)
  /\ exists u, parse_unary_expression 5 0 (tokens [I 2; A "*"; P ";"]) = Ok (u, 1) /\
       Some (mkTerm None (Some (mkUnary (mkPrimary (I 2) TInteger None) TInteger None))
                    TInteger None) = Some (mkTerm None (Some u) (u_typ u) None).
Proof.
  assert (H : parse_term_expression 6 0 (tokens [I 2; A "*"; P ";"]) =
    Ok (Some (mkTerm None (Some (mkUnary (mkPrimary (I 2) TInteger None) TInteger None))
                     TInteger None), 1)) by (vm_compute; reflexivity).
  split; [exact H | exact (term_layer_returns_leaf 6 0 _ _ 1 H)].
Defined.

(** The Comparison layer likewise only ever succeeds with a leaf over the
    Term result, at the position after it. *)
Theorem comparison_layer_returns_leaf (n i : nat) (toks : list Token)
  (x : option ComparisonExpression) (j : nat) :
  parse_comparison_expression n i toks = Ok (x, j) ->
  exists l, parse_term_expression (pred n) i toks = Ok (Some l, j) /\
            x = Some (mkComparison None (Some l) (t_typ l) None).
Proof.
  intros H. destruct n as [|n]; [discriminate H|].
  cbn -[parse_term_expression comparison_loop] in H.
  destruct (parse_term_expression n i toks) as [[l j']| | |] eqn:El; cbn in H; try discriminate H.
  destruct n as [|n]; [discriminate H|].
  cbn -[op_guard expect parse_term_expression] in H.
  destruct (op_guard is_comparison_op j' toks) as [[|]| | |];
    cbn -[expect parse_term_expression] in H; try discriminate H.
  - destruct (expect j' toks (Arithmetic "")); cbn -[parse_term_expression] in H; try discriminate H.
    destruct (parse_term_expression n (S j') toks) as [[r k]| | |]; cbn in H; try discriminate H.
    destruct l as [l|]; cbn in H; [|discriminate H].
    destruct r as [r|]; cbn in H; [|discriminate H].
    destruct (bool_decide (t_typ l <> t_typ r)); [|discriminate H].
    destruct (index toks k); discriminate H.
  - destruct l as [l|]; cbn in H; [|discriminate H].
    injection H as <- <-. exists l. split; [exact El | reflexivity].
Qed.

Lemma comparison_layer_returns_leaf_witness :
  parse_comparison_expression 7 0 (tokens [I 2; A "<"; P ";"]) = Ok (Some (cmp_leaf (I 2)), 1)
  /\ exists l, parse_term_expression 6 0 (tokens [I 2; A "<"; P ";"]) = Ok (Some l, 1) /\
       Some (cmp_leaf (I 2)) = Some (mkComparison None (Some l) (t_typ l) None).
Proof.
  assert (H : parse_comparison_expression 7 0 (tokens [I 2; A "<"; P ";"])
              = Ok (Some (cmp_leaf (I 2)), 1)) by (vm_compute; reflexivity).
  split; [exact H | exact (comparison_layer_returns_leaf 7 0 _ _ 1 H)].
Defined.

Lemma nth_error_before {X} (l : list X) (i j : nat) (x : X) :
  j <= i -> nth_error l i = Some x -> exists y, nth_error l j = Some y.
Proof.
  intros Hji Hi. assert (i < length l) by (apply nth_error_Some; congruence).
  destruct (nth_error l j) eqn:E; [eauto|]. apply nth_error_None in E. lia.
Qed.

(** In [let name: T = e], with [name] new in the innermost scope and [T]
    a type keyword, a type of [e] different from [T] makes the declaration
    fail with "Type mismatch: expected T, but found ..." at the first token
    of [e]; the tokens in the places of [:] and [=] are not checked. *)
Theorem declaration_mismatch_at_initializer (f i : nat) (toks : list Token)
  (sc : list Scope) (top : Scope) (name : string) (p : TokenPos) (tty t0 : Token)
  (T : ValueType) (e : Expression) (j : nat) :
  last sc = Some top ->
  nth_error toks (S i) = Some (mkToken (Identifier name) p) ->
  variables top !! name = None ->
  nth_error toks (S (S (S i))) = Some tty -> parse_type tty = Ok T ->
  nth_error toks (S (S (S (S (S i))))) = Some t0 ->
  parse_expression f (S (S (S (S (S i))))) toks = Ok (e, j) ->
  T <> typ e ->
  parse_variable_declaration f i toks sc =
    Err (error (ETypeMismatchDecl T (typ e)) (pos t0)).
Proof.
  intros Hlast Hname Hnone Htty HT Ht0 He Hne.
  destruct (nth_error_before toks (S (S (S i))) (S (S i)) tty ltac:(lia) Htty) as [c Hc].
  destruct (nth_error_before toks (S (S (S (S (S i))))) (S (S (S (S i)))) t0 ltac:(lia) Ht0)
    as [q Hq].
  unfold parse_variable_declaration.
  rewrite (expect_category _ _ empty_identifier _ Hname eq_refl). cbn -[expect parse_expression index].
  rewrite Hlast. cbn -[expect parse_expression index any_key].
  assert (Hk : any_key (variables top) name = false).
  { destruct (any_key (variables top) name) eqn:Hk; [|reflexivity].
    apply any_key_spec in Hk. rewrite Hnone in Hk. destruct Hk; discriminate. }
  rewrite Hk.
  rewrite (expect_category _ _ (Punctuation ":") _ Hc eq_refl). cbn -[expect parse_expression index].
  rewrite (expect_category _ _ empty_identifier _ Htty eq_refl). cbn -[expect parse_expression index].
  rewrite HT. cbn -[expect parse_expression index].
  rewrite (expect_category _ _ (Punctuation "=") _ Hq eq_refl). cbn -[expect parse_expression index].
  rewrite He. cbn -[index]. rewrite (bool_decide_true _ Hne). rewrite (index_nth _ _ _ Ht0).
  reflexivity.
Qed.

Lemma declaration_mismatch_at_initializer_witness :
  parse_variable_declaration 40 0
    (tokens [Id "let"; Id "x"; P ":"; Id "int"; P "="; StringV "a"; P ";"]) initial_scope
  = Err (error (ETypeMismatchDecl TInteger TString) (at_col 5)).
Proof.
  exact (declaration_mismatch_at_initializer 40 0
           (tokens [Id "let"; Id "x"; P ":"; Id "int"; P "="; StringV "a"; P ";"])
           initial_scope (mkScope ∅ []) "x" (at_col 1) (mkToken (Id "int") (at_col 3))
           (mkToken (StringV "a") (at_col 5)) TInteger
           (mkExpression
              (Comparison (mkComparison None
                 (Some (mkTerm None (Some (mkUnary (mkPrimary (StringV "a") TString None)
                                                   TString None)) TString None))
                 TString None)) TString) 6
           eq_refl eq_refl (lookup_empty "x") eq_refl eq_refl eq_refl
           ltac:(vm_compute; reflexivity) ltac:(discriminate)).
Defined.

(** A program whose first token is an identifier other than [fn] and
    [let] fails with "Unknown identifier" at that token. *)
Theorem unknown_identifier_statement (s : string) (p : TokenPos) (rest : list Token) :
  s <> "fn" -> s <> "let" ->
  parse (mkToken (Identifier s) p :: rest) = Err (error (EUnknownIdentifier s) p).
Proof.
  intros Hfn Hlet. unfold parse. cbn -[parse_statement expr_fuel].
  unfold parse_statement, parse_identifier. cbn.
  rewrite (bool_decide_false _ Hfn), (bool_decide_false _ Hlet). reflexivity.
Qed.

Lemma unknown_identifier_statement_witness :
  parse (tokens [Id "foo"; P ";"]) = Err (error (EUnknownIdentifier "foo") (at_col 0)).
Proof.
  exact (unknown_identifier_statement "foo" (at_col 0) (tokens_from 1 [P ";"])
           ltac:(discriminate) ltac:(discriminate)).
Defined.

(** [expect] with a category pattern either returns the token or panics
    past the end. *)
Lemma expect_category_ok_or_panic i toks v :
  is_category v = true -> (exists t, expect i toks v = Ok t) \/ expect i toks v = Panic IndexOutOfBounds.
Proof.
  intros Hc. destruct (nth_error toks i) as [t|] eqn:E.
  - left. exists t. apply expect_category; assumption.
  - right. apply nth_error_None in E. unfold expect.
    destruct (Nat.leb_spec (length toks) i); [|lia].
    unfold index. rewrite (proj2 (nth_error_None toks i) E). reflexivity.
Qed.

(** [parse_function_declaration] never returns a statement or an error,
    whatever the tokens: it panics past the end of input, on a name token
    without text, or at its [todo!()]; so every program that starts with
    [fn] panics. *)
Theorem fn_declaration_always_panics :
  (forall f i toks sc, exists k, parse_function_declaration f i toks sc = Panic k) /\
  (forall p rest, exists k, parse (mkToken (Identifier "fn") p :: rest) = Panic k).
Proof.
  assert (Hfn : forall f i toks sc, exists k, parse_function_declaration f i toks sc = Panic k).
  { intros f i toks sc. unfold parse_function_declaration.
    destruct (expect_category_ok_or_panic (S i) toks empty_identifier eq_refl)
      as [[t ->] | ->]; cbn; [|eauto].
    destruct (value t); cbn; try eauto;
      (destruct (expect_category_ok_or_panic (S (S i)) toks (Punctuation "(") eq_refl)
        as [[t' ->] | ->]; cbn; eauto). }
  split; [exact Hfn|].
  intros p rest. unfold parse. cbn -[parse_statement expr_fuel].
  unfold parse_statement, parse_identifier. cbn -[parse_function_declaration].
  rewrite bool_decide_true by reflexivity.
  match goal with
  | |- context [parse_function_declaration ?f ?i ?t ?s] => destruct (Hfn f i t s) as [k ->]
  end.
  cbn. eauto.
Qed.

Lemma parse_loop_length n : forall i toks sc ast0 ast,
  parse_loop n i toks sc ast0 = Ok ast -> length ast <= length ast0 + (length toks - i).
Proof.
  induction n as [|n IH]; intros i toks sc ast0 ast H; [discriminate H|].
  cbn -[parse_statement expr_fuel Nat.ltb] in H.
  destruct (Nat.ltb_spec i (length toks)) as [Hi|Hi].
  - destruct (parse_statement (expr_fuel toks) i toks sc) as [[[stmt j] sc']| | |] eqn:E;
      cbn in H; try discriminate H.
    apply parse_statement_advances in E. apply IH in H.
    rewrite length_app in H. cbn in H. lia.
  - injection H as <-. lia.
Qed.

(** A successful [parse] returns at most as many statements as there are
    tokens. *)
Theorem parse_statement_count_bound (toks : list Token) (ast : list Statement) :
  parse toks = Ok ast -> length ast <= length toks.
Proof.
  unfold parse. intros H. apply parse_loop_length in H. cbn in H. lia.
Qed.

Lemma parse_statement_count_bound_witness :
  parse toks_let_x = Ok [stmt_let_x] /\ length [stmt_let_x] <= length toks_let_x.
Proof.
  assert (H : parse toks_let_x = Ok [stmt_let_x]) by (vm_compute; reflexivity).
  split; [exact H | exact (parse_statement_count_bound toks_let_x [stmt_let_x] H)].
Defined.

(** [exit_scope] undoes [enter_scope]; [enter_scope] grows the stack by
    one scope, a copy of the innermost one (an empty scope when the stack
    is empty). *)
Theorem enter_exit_scope_round_trip (sc : list Scope) :
  exit_scope (enter_scope sc) = sc /\
  length (enter_scope sc) = S (length sc) /\
  last (enter_scope sc) = Some (match last sc with Some top => top | None => empty_scope end).
Proof.
  unfold exit_scope, enter_scope. split; [apply removelast_last|]. split.
  - rewrite length_app. cbn. lia.
  - apply last_snoc.
Qed.

(** A [(] group right after the first operand of an expression replaces
    that operand: at the end of input the expression parse returns the
    inner expression alone, the leading operand dropped. *)
Theorem group_replaces_left_operand (n i : nat) (toks : list Token)
  (l : option ComparisonExpression) (j : nat) (t : Token) (e : Expression) (k : nat) :
  parse_comparison_expression (S (S n)) i toks = Ok (l, j) ->
  nth_error toks j = Some t -> value t = Punctuation "(" ->
  parse_expression (S n) (S j) toks = Ok (e, k) ->
  S k = length toks ->
  parse_expression (S (S (S n))) i toks = Ok (e, S k).
Proof.
  intros Hl Ht Hv He Hk.
  cbn [parse_expression]. rewrite Hl. cbn [res_bind expression_loop].
  assert (Hj : j < length toks) by (apply nth_error_Some; congruence).
  apply Nat.ltb_lt in Hj. rewrite Hj. rewrite (index_nth _ _ _ Ht). cbn [res_bind].
  rewrite Hv, bool_decide_true by reflexivity. rewrite He. cbn [res_bind].
  destruct (nth_error toks k) as [c|] eqn:Ec; [|apply nth_error_None in Ec; lia].
  rewrite (expect_category _ _ (Punctuation ")") _ Ec eq_refl). cbn [res_bind].
  assert (Hend : Nat.ltb (S k) (length toks) = false) by (apply Nat.ltb_ge; lia).
  rewrite Hend. reflexivity.
Qed.

Lemma group_replaces_left_operand_witness :
  parse_expression 13 0 (tokens [I 1; P "("; StringV "a"; P ")"]) =
    Ok (mkExpression
          (Comparison (mkComparison None
             (Some (mkTerm None (Some (mkUnary (mkPrimary (StringV "a") TString None)
                                               TString None)) TString None))
             TString None)) TString, 4).
Proof.
  exact (group_replaces_left_operand 10 0 (tokens [I 1; P "("; StringV "a"; P ")"])
           (Some (cmp_leaf (I 1))) 1 (mkToken (P "(") (at_col 1))
           (mkExpression
              (Comparison (mkComparison None
                 (Some (mkTerm None (Some (mkUnary (mkPrimary (StringV "a") TString None)
                                                   TString None)) TString None))
                 TString None)) TString) 3
           ltac:(vm_compute; reflexivity) eq_refl eq_refl
           ltac:(vm_compute; reflexivity) eq_refl).
Defined.


Lemma expect_Ok_nth i toks v t : expect i toks v = Ok t -> nth_error toks i = Some t.
Proof.
  unfold expect, index. intros H.
  destruct (Nat.leb (length toks) i); destruct (nth_error toks i) eqn:E; cbn in H;
    try discriminate H.
  destruct (bool_decide (value t0 = v)); [injection H as <-; reflexivity|].
  destruct (is_category v); [injection H as <-; reflexivity | discriminate H].
Qed.

Lemma expression_nodes_typed n :
  (forall i toks e j, parse_expression n i toks = Ok (e, j) -> node_typed e) /\
  (forall i toks l x e j, (forall x0, x = Some x0 -> node_typed x0) ->
     expression_loop n i toks l x = Ok (e, j) -> node_typed e).
Proof.
  induction n as [|n [IHe IHl]]; split.
  - intros * H. discriminate H.
  - intros * _ H. discriminate H.
  - intros i toks e j H. cbn -[parse_comparison_expression expression_loop] in H.
    destruct (parse_comparison_expression n i toks) as [[l j']| | |]; cbn in H; try discriminate H.
    eapply IHl; [|exact H]. discriminate.
  - intros i toks l x e j Hx H.
    cbn [expression_loop] in H.
    destruct (Nat.ltb i (length toks)).
    2:{ destruct x as [x0|]; cbn in H; [injection H as <- _; apply Hx; reflexivity|].
        destruct l as [l|]; cbn in H; [|discriminate H].
        injection H as <- _. reflexivity. }
    destruct (index toks i) as [t| | |] eqn:Et; cbn -[expect parse_comparison_expression
      parse_expression expression_loop] in H; try discriminate H.
    destruct (bool_decide (value t = Punctuation "(")).
    + destruct (parse_expression n (S i) toks) as [[ne k]| | |] eqn:Ene; cbn in H;
        try discriminate H.
      destruct (expect k toks (Punctuation ")")); cbn in H; try discriminate H.
      eapply IHl; [|exact H]. intros x0 Hx0. injection Hx0 as <-. eapply IHe. exact Ene.
    + destruct (bool_decide (value t = Arithmetic "+") || bool_decide (value t = Arithmetic "-"))
        eqn:Hop.
      2:{ destruct x as [x0|]; cbn in H; [injection H as <- _; apply Hx; reflexivity|].
          destruct l as [l|]; cbn in H; [|discriminate H].
          injection H as <- _. reflexivity. }
      destruct (expect i toks (Arithmetic "")) as [op| | |] eqn:Eop; cbn in H; try discriminate H.
      destruct (parse_comparison_expression n (S i) toks) as [[r k]| | |]; cbn in H;
        try discriminate H.
      destruct l as [l|]; cbn in H; [|discriminate H].
      destruct r as [r|]; cbn in H; [|discriminate H].
      destruct (bool_decide (c_typ l <> c_typ r)) eqn:Hty.
      { destruct (index toks k); discriminate H. }
      eapply IHl; [|exact H]. intros x0 Hx0. injection Hx0 as <-.
      apply bool_decide_eq_false in Hty.
      apply expect_Ok_nth in Eop. unfold index in Et. rewrite Eop in Et. injection Et as ->.
      exists l, r, t. cbn. repeat split; try reflexivity.
      all: try (destruct (decide (c_typ l = c_typ r)); [congruence | contradiction]).
      apply orb_true_iff in Hop as [Hop|Hop]; apply bool_decide_eq_true in Hop; tauto.
Qed.

(** Every expression [parse_expression] returns has a [node_typed] top
    node: a Binary node has both operands, its [+] or [-] token, and the
    same type for both operands, itself and the expression. *)
Theorem binary_nodes_well_typed (n i : nat) (toks : list Token) (e : Expression) (j : nat) :
  parse_expression n i toks = Ok (e, j) -> node_typed e.
Proof. apply (proj1 (expression_nodes_typed n)). Qed.

Lemma binary_nodes_well_typed_witness :
  node_typed
    (mkExpression (Binary (mkBinary (Some (cmp_leaf (I 2))) (Some (cmp_leaf (I 1))) TInteger
                                    (Some (mkToken (A "+") (at_col 1))))) TInteger).
Proof.
  exact (binary_nodes_well_typed 20 0 (tokens [I 1; A "+"; I 2]) _ 3
           ltac:(vm_compute; reflexivity)).
Defined.

(** The driver loop of [parse] runs the [driver_step]s one per iteration. *)
Lemma parse_loop_driver toks st st' :
  rtc (driver_step toks) st st' ->
  forall n, length toks - fst (fst st) < n ->
  exists n', length toks - fst (fst st') < n' /\
    parse_loop n (fst (fst st)) toks (snd (fst st)) (snd st)
    = parse_loop n' (fst (fst st')) toks (snd (fst st')) (snd st').
Proof.
  induction 1 as [st|st1 st2 st3 Hs Hr IH]; intros n Hn; [eauto|].
  destruct Hs as [i sc ast stmt j sc' Hi Hstmt]. cbn [fst snd] in *.
  destruct n as [|n]; [lia|].
  pose proof (parse_statement_advances _ _ _ _ _ _ _ Hstmt) as Hij.
  destruct (IH n ltac:(lia)) as (n' & Hn' & Heq). exists n'. split; [exact Hn'|].
  rewrite <- Heq. cbn -[parse_statement expr_fuel Nat.ltb].
  apply Nat.ltb_lt in Hi. rewrite Hi, Hstmt. reflexivity.
Qed.

(** From any state the driver of [parse] reaches, [parse] returns the
    statements collected so far when the input is used up, and otherwise
    the error or panic of the next statement if it fails: parse stops at
    the first statement that does not parse. *)
Theorem parse_outcome_at_first_failure (toks : list Token) (i : nat) (sc : list Scope)
  (ast : list Statement) :
  reachable toks (i, sc, ast) ->
  (length toks <= i -> parse toks = Ok ast) /\
  (i < length toks ->
     match parse_statement (expr_fuel toks) i toks sc with
     | Err e => parse toks = Err e
     | Panic k => parse toks = Panic k
     | _ => True
     end).
Proof.
  intros Hr. unfold parse.
  destruct (parse_loop_driver toks _ _ Hr (S (length toks)) ltac:(cbn; lia)) as (n & Hn & Heq).
  cbn [fst snd] in Heq, Hn. rewrite Heq.
  destruct n as [|n]; [lia|]. cbn -[parse_statement expr_fuel Nat.ltb].
  split.
  - intros Hi. apply Nat.ltb_ge in Hi. rewrite Hi. reflexivity.
  - intros Hi. apply Nat.ltb_lt in Hi. rewrite Hi.
    destruct (parse_statement (expr_fuel toks) i toks sc) as [[[? ?] ?]| | |]; reflexivity.
Qed.

Lemma parse_outcome_at_first_failure_witness :
  parse (tokens [Id "let"; Id "x"; P ":"; Id "int"; P "="; I 1; P ";"; Id "y"; P ";"])
  = Err (error (EUnknownIdentifier "y") (at_col 7)).
Proof.
  assert (Hr : reachable
                 (tokens [Id "let"; Id "x"; P ":"; Id "int"; P "="; I 1; P ";"; Id "y"; P ";"])
                 (7, scope_with_x, [stmt_let_x])).
  { unfold reachable. eapply rtc_l; [|apply rtc_refl].
    apply (driver_stmt _ 0 initial_scope [] stmt_let_x 7 scope_with_x);
      [cbn; lia | vm_compute; reflexivity]. }
  pose proof (proj2 (parse_outcome_at_first_failure _ _ _ _ Hr) ltac:(cbn; lia)) as Hp.
  assert (Hs : parse_statement
                 (expr_fuel (tokens [Id "let"; Id "x"; P ":"; Id "int"; P "="; I 1; P ";";
                                     Id "y"; P ";"])) 7
                 (tokens [Id "let"; Id "x"; P ":"; Id "int"; P "="; I 1; P ";"; Id "y"; P ";"])
                 scope_with_x
               = Err (error (EUnknownIdentifier "y") (at_col 7))) by (vm_compute; reflexivity).
  rewrite Hs in Hp. exact Hp.
Defined.

(** A successful [let] declaration has the initializer's type as its
    declared type, and afterwards the innermost scope maps the name to an
    immutable entry of that type; the stack keeps its height. *)
Theorem declaration_records_variable (f i : nat) (toks : list Token) (sc : list Scope)
  (stmt : Statement) (j : nat) (sc' : list Scope) :
  parse_variable_declaration f i toks sc = Ok (stmt, j, sc') ->
  exists name e top',
    s_kind stmt = VariableDeclaration (mkVariableDeclaration name (typ e) e) /\
    last sc' = Some top' /\
    variables top' !! name = Some (mkVariableOptions false (typ e)) /\
    length sc' = length sc.
Proof.
  intros H. unfold parse_variable_declaration in H. res_inv H.
  all: unfold insert_last in *; destruct (last sc) as [top|] eqn:Hl; cbn in *;
    try discriminate.
  all: repeat match goal with
       | E : Ok _ = Ok _ |- _ => injection E as E; subst
       | E : Ok (_, _, _) = Ok (_, _, _) |- _ => injection E as <- <- <-
       end.
  all: match goal with
       | E : bool_decide (?T <> typ ?ex) = false |- _ =>
           apply bool_decide_eq_false in E;
           assert (T = typ ex) as -> by (destruct (decide (T = typ ex)); tauto)
       end.
  all: do 3 eexists; split; [reflexivity|]; split; [apply last_snoc|]; split;
       [apply lookup_insert_eq|].
  all: apply last_Some in Hl as [l' ->]; rewrite removelast_last, !length_app; reflexivity.
Qed.

Lemma declaration_records_variable_witness :
  exists name e top',
    s_kind stmt_let_x = VariableDeclaration (mkVariableDeclaration name (typ e) e) /\
    last scope_with_x = Some top' /\
    variables top' !! name = Some (mkVariableOptions false (typ e)) /\
    length scope_with_x = length initial_scope.
Proof.
  exact (declaration_records_variable (expr_fuel toks_let_x) 0 toks_let_x initial_scope
           stmt_let_x 7 scope_with_x ltac:(vm_compute; reflexivity)).
Defined.
